(** * The setting DAO and the local authentication strategy

    A shallow embedding of [src/lib/api/settings/lib/dao.js]: the five CRUD
    functions of the setting DAO ([findByID], [find], [insert], [update],
    [remove]) over the Couchbase wrapper [db], and the verify callback of
    the passport local strategy.

    The DAO is written against an interface ([Backend]) that lists what
    dao.js uses of [db]; an in-memory store implements that interface
    following the backend contract of the specification. *)

From Stdlib Require Import Ascii.
From stdpp Require Import gmap strings list fin_maps pretty.

Open Scope string_scope.
Open Scope list_scope.

(** ** JavaScript values and objects *)

Module Js.

(** The values that occur in setting documents and in the metadata that
    Couchbase returns.  [VCas] is the opaque CAS token of the store. *)
Inductive jsval : Type :=
| VUndefined
| VNull
| VBool (b : bool)
| VNum (z : Z)
| VStr (s : string)
| VCas (c : N).

#[global] Instance jsval_eq_dec : EqDecision jsval.
Proof. solve_decision. Defined.

(** A plain object: own enumerable properties by name. *)
Abbreviation obj := (gmap string jsval).

(** [o.k]: reading a missing property gives [undefined]. *)
Definition get_prop (o : obj) (k : string) : jsval :=
  default VUndefined (o !! k).

(** [o.k = v] *)
Definition set_prop (o : obj) (k : string) (v : jsval) : obj :=
  <[k := v]> o.

(** [delete o.k] *)
Definition delete_prop (o : obj) (k : string) : obj :=
  delete k o.

(** [Object.assign(target, source)]: every own property of [source] is
    copied onto [target], overwriting the properties [target] already
    has.  (Map union is left-biased.) *)
Definition assign (target source : obj) : obj :=
  source ∪ target.

End Js.
Import Js.

(** ** Exceptions, state and try/catch

    An [async] function of the DAO is a computation over a world [W] that
    either returns a value or throws; [X] is the type of what is thrown. *)

Definition M (W X A : Type) : Type := W → (X + A) * W.

Definition ret {W X A} (a : A) : M W X A := λ w, (inr a, w).

Definition throw {W X A} (x : X) : M W X A := λ w, (inl x, w).

Definition bind {W X A B} (m : M W X A) (k : A → M W X B) : M W X B :=
  λ w, match m w with
       | (inr a, w') => k a w'
       | (inl x, w') => (inl x, w')
       end.

(** [try { body } catch (error) { handler }] *)
Definition try_catch {W X Y A} (body : M W X A) (handler : X → M W Y A) : M W Y A :=
  λ w, match body w with
       | (inr a, w') => (inr a, w')
       | (inl x, w') => handler x w'
       end.

Declare Scope dao_scope.
Delimit Scope dao_scope with dao.
Notation "'await' x := m 'in' k" := (bind m (λ x, k))
  (at level 10, x name, m at level 100, k at level 200,
   format "'[v' 'await'  x  :=  m  'in' '/' k ']'") : dao_scope.
Notation "'run' m 'in' k" := (bind m (λ _, k))
  (at level 10, m at level 100, k at level 200,
   format "'[v' 'run'  m  'in' '/' k ']'") : dao_scope.
Notation "'try' body 'catch' x ⇒ handler" := (try_catch body (λ x, handler))
  (at level 10, x name, body at level 200, handler at level 200) : dao_scope.

(** ** What dao.js uses of [db] ('../../../config/couchbase') *)

(** What [db.get] resolves to: [data.cas] and [data.value]. *)
Record get_result : Type := GetResult { cas : jsval; value : obj }.

(** Modelled from the spec: a query of the absent backend answers with a
    sequence of {id, version, fields}; this is one element of it. *)
Record row : Type := Row { row_id : string; row_cas : jsval; row_fields : obj }.

Class Backend : Type := {
  (** the state of the bucket *)
  bstate : Type;
  (** what the wrapper's promises reject with *)
  native_error : Type;
  (** what [db.handleError] returns *)
  app_error : Type;
  (** a prepared N1QL query *)
  query : Type;
  (** [error.message] *)
  message : native_error → string;
  bucketName : string;
  durabilityOptions : obj;
  N1qlQuery_fromString : string → query;
  db_get : string → M bstate native_error get_result;
  db_query : query → M bstate native_error (list row);
  db_insert : string → obj → obj → M bstate native_error obj;
  db_replace : jsval → obj → obj → M bstate native_error obj;
  db_remove : string → M bstate native_error unit;
  handleError : native_error → app_error;
  removeMetadataFromDoc : obj → obj
}.

(** ** dao.js *)

Section Dao.
Context `{B : Backend}.

(** [uuid.v1()] of node-uuid: the identifier produced at the [n]-th tick
    of the generator's clock. *)
Variable uuid_of : nat → string.

(** The world of the DAO: the bucket, what [logger.error] has written
    (first argument, second argument), and the clock of the UUID
    generator. *)
Record world : Type := World {
  db : bstate;
  log : list (string * string);
  uuid_clock : nat
}.

Local Open Scope dao_scope.

(** A call of [db]: runs on the bucket, leaves log and clock alone. *)
Definition on_db {A} (m : M bstate native_error A) : M world native_error A :=
  λ w, let (r, s) := m (db w) in (r, World s (log w) (uuid_clock w)).

(** [logger.error(prefix, msg)] *)
Definition logger_error {X} (prefix msg : string) : M world X unit :=
  λ w, (inr tt, World (db w) (log w ++ [(prefix, msg)]) (uuid_clock w)).

(** [uuid.v1()] *)
Definition uuid_v1 {X} : M world X string :=
  λ w, (inr (uuid_of (uuid_clock w)), World (db w) (log w) (S (uuid_clock w))).

Definition DOC_TYPE : string := "setting".

Definition findByID (id : string) : M world app_error obj :=
  try
    await data := on_db (db_get id) in
    ret (assign {[ "id" := VStr id; "cas" := cas data ]} (value data))
  catch error ⇒
    run logger_error ("DB findByID - " +:+ DOC_TYPE +:+ " -") (message error) in
    throw (handleError error).

(** The text of the statement that [find] prepares. *)
Definition find_statement : string :=
  "SELECT meta().cas, meta().id, `" +:+ bucketName +:+ "`.* FROM `"
    +:+ bucketName +:+ "` WHERE type = '" +:+ DOC_TYPE +:+ "'".

Definition find : M world app_error (list row) :=
  let query := N1qlQuery_fromString find_statement in
  try
    on_db (db_query query)
  catch error ⇒
    run logger_error ("DB find - " +:+ DOC_TYPE +:+ " -") (message error) in
    throw (handleError error).

(** [insert(doc, id = uuid.v1())]: the default is evaluated only when the
    second argument is missing.  [doc.type = DOC_TYPE] is an assignment
    to the caller's object; the object that goes to [db.insert] is that
    object after the assignment. *)
Definition insert (doc : obj) (id : option string) : M world app_error obj :=
  await id := match id with Some id => ret id | None => uuid_v1 end in
  let doc := set_prop doc "type" (VStr DOC_TYPE) in
  try
    await data := on_db (db_insert id doc durabilityOptions) in
    let data := set_prop data "id" (VStr id) in
    ret data
  catch error ⇒
    run logger_error ("DB insert - " +:+ DOC_TYPE +:+ " -") (message error) in
    throw (handleError error).

Definition update (doc : obj) : M world app_error obj :=
  let id := get_prop doc "id" in
  let cas := get_prop doc "cas" in
  let doc := removeMetadataFromDoc doc in
  let doc := set_prop doc "type" (VStr DOC_TYPE) in
  try
    on_db (db_replace id doc {[ "cas" := cas ]})
  catch error ⇒
    run logger_error ("DB update - " +:+ DOC_TYPE +:+ " -") (message error) in
    throw (handleError error).

Definition remove (id : string) : M world app_error unit :=
  try
    on_db (db_remove id)
  catch error ⇒
    run logger_error ("DB remove - " +:+ DOC_TYPE +:+ " -") (message error) in
    throw (handleError error).

(** A caller of the DAO: one of the five exported functions, applied. *)
Inductive dao_call : Type :=
| CallFindByID (id : string)
| CallFind
| CallInsert (doc : obj) (id : option string)
| CallUpdate (doc : obj)
| CallRemove (id : string).

(** The world after a call, whatever it returned or threw. *)
Definition after (c : dao_call) (w : world) : world :=
  match c with
  | CallFindByID id => (findByID id w).2
  | CallFind => (find w).2
  | CallInsert doc id => (insert doc id w).2
  | CallUpdate doc => (update doc w).2
  | CallRemove id => (remove id w).2
  end.

(** The name a call is logged under. *)
Definition op_name (c : dao_call) : string :=
  match c with
  | CallFindByID _ => "findByID"
  | CallFind => "find"
  | CallInsert _ _ => "insert"
  | CallUpdate _ => "update"
  | CallRemove _ => "remove"
  end.

Definition error_of {A} (r : app_error + A) : option app_error :=
  match r with inl t => Some t | inr _ => None end.

(** What a call throws at its caller, if it throws. *)
Definition thrown (c : dao_call) (w : world) : option app_error :=
  match c with
  | CallFindByID id => error_of (findByID id w).1
  | CallFind => error_of (find w).1
  | CallInsert doc id => error_of (insert doc id w).1
  | CallUpdate doc => error_of (update doc w).1
  | CallRemove id => error_of (remove id w).1
  end.

End Dao.

(** ** The bucket, in memory *)

Module Mem.

(** Modelled from the spec: the Backend collaborator "fails
    distinguishably" when a key is not found, on an id collision and on a
    version mismatch; every other failure (network, timeout, ...) is of
    one more kind.  The module config/couchbase, which defines [db], is
    what is missing. *)
Inductive code : Type := KeyNotFound | KeyExists | CasMismatch | Failure.

Record error : Type := Error { err_code : code; err_message : string }.

(** Modelled from the spec: the error taxonomy of its section 7, which is
    what the absent [db.handleError] translates to; [BackendError] carries
    the original cause. *)
Inductive app_error : Type :=
| NotFound
| AlreadyExists
| VersionConflict
| BackendError (cause : error).

(** Modelled from the spec: the absent [db.handleError], translating each
    distinguishable backend failure to its taxonomy kind and any other
    one to [BackendError]. *)
Definition handleError (e : error) : app_error :=
  match err_code e with
  | KeyNotFound => NotFound
  | KeyExists => AlreadyExists
  | CasMismatch => VersionConflict
  | Failure => BackendError e
  end.

(** Modelled from the spec: the absent [db.removeMetadataFromDoc], which
    strips version and id from the payload. *)
Definition removeMetadataFromDoc (doc : obj) : obj :=
  delete_prop (delete_prop doc "id") "cas".

(** Modelled from the spec: the state of the absent storage backend.
    Every document is stored under its id with the version the backend
    tracks for it; [outage] is [Some msg] while the backend cannot be
    reached (every request then fails with [msg]). *)
Record bucket : Type := Bucket {
  store : gmap string (N * obj);
  outage : option string
}.

Definition failure {A} (c : code) (msg : string) : M bucket error A :=
  throw (Error c msg).

(** Modelled from the spec: [get(id) → {value, version}], failing
    distinguishably when not found. *)
Definition get (id : string) : M bucket error get_result :=
  λ s, match outage s with
       | Some msg => failure Failure msg s
       | None =>
         match store s !! id with
         | Some (c, doc) => (inr (GetResult (VCas c) doc), s)
         | None => failure KeyNotFound "key not found" s
         end
       end.

(** Modelled from the spec: [insert(id, payload, durabilityConfig) →
    {version}], failing distinguishably on id collision.  A new document
    starts at version 1. *)
Definition insert (id : string) (doc options : obj) : M bucket error obj :=
  λ s, match outage s with
       | Some msg => failure Failure msg s
       | None =>
         match store s !! id with
         | Some _ => failure KeyExists "key already exists" s
         | None =>
           (inr {[ "cas" := VCas 1 ]}, Bucket (<[id := (1%N, doc)]> (store s)) (outage s))
         end
       end.

(** Modelled from the spec: [replace(id, payload, {expectedVersion}) →
    {version}], failing distinguishably on version mismatch or not-found;
    the write happens only if the stored version equals the expected one,
    and issues a new version.  A key that is not a string names no
    document of the bucket. *)
Definition replace (id : jsval) (doc options : obj) : M bucket error obj :=
  λ s, match outage s with
       | Some msg => failure Failure msg s
       | None =>
         match id with
         | VStr id =>
           match store s !! id with
           | None => failure KeyNotFound "key not found" s
           | Some (c, _) =>
             if decide (get_prop options "cas" = VCas c)
             then (inr {[ "cas" := VCas (c + 1) ]},
                   Bucket (<[id := ((c + 1)%N, doc)]> (store s)) (outage s))
             else failure CasMismatch "cas mismatch" s
           end
         | _ => failure Failure "invalid key" s
         end
       end.

(** Modelled from the spec: [remove(id) → void], failing distinguishably
    when not found. *)
Definition remove (id : string) : M bucket error unit :=
  λ s, match outage s with
       | Some msg => failure Failure msg s
       | None =>
         match store s !! id with
         | Some _ => (inr tt, Bucket (delete id (store s)) (outage s))
         | None => failure KeyNotFound "key not found" s
         end
       end.

(** Reading the statement back: [strip_prefix p s] is what follows [p] in
    [s]; [until_quote s] is the string literal that [s] closes. *)
Fixpoint strip_prefix (p s : string) : option string :=
  match p, s with
  | EmptyString, _ => Some s
  | String a p', String b s' => if decide (a = b) then strip_prefix p' s' else None
  | String _ _, EmptyString => None
  end.

Fixpoint until_quote (s : string) : option string :=
  match s with
  | EmptyString => None
  | String a r =>
    if decide (a = "'"%char)
    then (if decide (r = EmptyString) then Some EmptyString else None)
    else String a <$> until_quote r
  end.

(** The type that a statement
    [SELECT meta().cas, meta().id, `b`.* FROM `b` WHERE type = 't']
    over bucket [b] filters on. *)
Definition where_type (b statement : string) : option string :=
  strip_prefix ("SELECT meta().cas, meta().id, `" +:+ b +:+ "`.* FROM `"
                  +:+ b +:+ "` WHERE type = '") statement
  ≫= until_quote.

Definition has_type (ty : string) (entry : string * (N * obj)) : Prop :=
  entry.2.2 !! "type" = Some (VStr ty).

#[global] Instance has_type_dec ty entry : Decision (has_type ty entry).
Proof. unfold has_type. apply _. Defined.

Definition row_of (entry : string * (N * obj)) : row :=
  Row entry.1 (VCas entry.2.1) entry.2.2.

(** Modelled from the spec: [query(typeFilter) → sequence of {id,
    version, fields}], all documents of the bucket whose [type] is the
    one filtered on. *)
Definition query (b statement : string) : M bucket error (list row) :=
  λ s, match outage s with
       | Some msg => failure Failure msg s
       | None =>
         match where_type b statement with
         | Some ty => (inr (row_of <$> map_to_list (filter (has_type ty) (store s))), s)
         | None => failure Failure "syntax error" s
         end
       end.

End Mem.

(** Modelled from the spec: the absent module config/couchbase, over a
    bucket named [b] and configured with the durability options [d]. *)
Definition MemBackend (b : string) (d : obj) : Backend := {|
  bstate := Mem.bucket;
  native_error := Mem.error;
  app_error := Mem.app_error;
  query := string;
  message := Mem.err_message;
  bucketName := b;
  durabilityOptions := d;
  N1qlQuery_fromString := id;
  db_get := Mem.get;
  db_query := Mem.query b;
  db_insert := Mem.insert;
  db_replace := Mem.replace;
  db_remove := Mem.remove;
  handleError := Mem.handleError;
  removeMetadataFromDoc := Mem.removeMetadataFromDoc
|}.

Abbreviation mem_world b d := (world (B := MemBackend b d)).

(** ** Histories of a bucket *)

Section Histories.
Variables (b : string) (d : obj).
Variable uuid_of : nat → string.

Local Abbreviation mem_world := (mem_world b d).

(** What happens to the bucket of the settings: a call of the DAO, or the
    backend becoming unreachable ([Some msg]) or reachable again. *)
Inductive event : Type :=
| Called (c : dao_call)
| Outage (o : option string).

Definition happen (e : event) (w : mem_world) : mem_world :=
  match e with
  | Called c => after uuid_of c w
  | Outage o =>
    World (B := MemBackend b d) (Mem.Bucket (Mem.store (db w)) o) (log w) (uuid_clock w)
  end.

Definition history (es : list event) (w : mem_world) : mem_world :=
  foldl (λ w e, happen e w) w es.

(** A document arriving in the bucket: through [insert] of this DAO, or
    written under [id] by another repository of the application, which
    sets its own type. *)
Inductive arrival : Type :=
| Own (fields : obj) (id : option string)
| Foreign (id : string) (doc : obj).

Definition arrive (a : arrival) (w : mem_world) : option mem_world :=
  match a with
  | Own fields id =>
    match insert uuid_of fields id w with
    | (inr _, w') => Some w'
    | (inl _, _) => None
    end
  | Foreign id doc =>
    match on_db (B := MemBackend b d) (db_insert id doc d) w with
    | (inr _, w') => Some w'
    | (inl _, _) => None
    end
  end.

(** All arrivals in turn; [None] as soon as one of them is refused. *)
Fixpoint arrive_all (l : list arrival) (w : mem_world) : option mem_world :=
  match l with
  | [] => Some w
  | a :: l => arrive a w ≫= arrive_all l
  end.

(** Every document of the bucket carries the type of the settings. *)
Definition all_settings (w : mem_world) : Prop :=
  map_Forall (λ _ entry, entry.2 !! "type" = Some (VStr DOC_TYPE)) (Mem.store (db w)).

Definition is_own (a : arrival) : bool :=
  match a with Own _ _ => true | Foreign _ _ => false end.

Definition of_other_type (a : arrival) : Prop :=
  match a with
  | Own _ _ => True
  | Foreign _ doc => doc !! "type" ≠ Some (VStr DOC_TYPE)
  end.

End Histories.

(** ** The local strategy (the second module of the file) *)

Section LocalStrategy.
(** User records and the errors of the user model, both from outside. *)
Variables (User Err : Type).

(** [String.prototype.toLowerCase], of the JavaScript runtime. *)
Variable toLowerCase : string → string.

(** The verify function in continuation-passing style: each step is a
    request to the user model with the callback that receives
    [(err, result)], or the final call of passport's [callback]. *)
Inductive proc (R : Type) : Type :=
| Done (r : R)
| FindOne (email : string) (k : Err + option User → proc R)
| ComparePassword (user : User) (password : string) (k : Err + bool → proc R).
Arguments Done {R}.
Arguments FindOne {R}.
Arguments ComparePassword {R}.

(** How [callback] is called: [callback(err)],
    [callback(null, false, { message })] or [callback(null, user)]. *)
Inductive verdict : Type :=
| CbError (err : Err)
| CbFail (message : string)
| CbUser (user : User).

(** [function(email, password, callback)].  A callback argument [err] that
    is set is [inl err]; a [user] that is not set is [inr None]. *)
Definition verify (email password : string) : proc verdict :=
  FindOne (toLowerCase email) (λ r,
    match r with
    | inl err => Done (CbError err)
    | inr None => Done (CbFail "This email is not registered.")
    | inr (Some user) =>
      ComparePassword user password (λ r,
        match r with
        | inl err => Done (CbError err)
        | inr false => Done (CbFail "This password is not correct.")
        | inr true => Done (CbUser user)
        end)
    end).

(** The requests that reach the user model. *)
Inductive request : Type :=
| ReqFindOne (email : string)
| ReqComparePassword (user : User) (password : string).

(** Running a strategy against a user model: [findOne] answers the
    lookups, [comparePassword] is the method of the user records. *)
Fixpoint perform {R} (findOne : string → Err + option User)
    (comparePassword : User → string → Err + bool)
    (p : proc R) : list request * R :=
  match p with
  | Done r => ([], r)
  | FindOne email k =>
    let (reqs, r) := perform findOne comparePassword (k (findOne email)) in
    (ReqFindOne email :: reqs, r)
  | ComparePassword user password k =>
    let (reqs, r) :=
      perform findOne comparePassword (k (comparePassword user password)) in
    (ReqComparePassword user password :: reqs, r)
  end.

Definition is_compare (q : request) : bool :=
  match q with ReqComparePassword _ _ => true | ReqFindOne _ => false end.

End LocalStrategy.

Arguments Done {User Err R}.
Arguments FindOne {User Err R}.
Arguments ComparePassword {User Err R}.
Arguments CbError {User Err}.
Arguments CbFail {User Err}.
Arguments CbUser {User Err}.
Arguments ReqFindOne {User}.
Arguments ReqComparePassword {User}.
Arguments verify {User Err}.
Arguments perform {User Err R}.
Arguments is_compare {User}.

(** ** Sequences of calls, over any [db] *)

Section Replay.
Context `{B : Backend}.
Variable uuid_of : nat → string.

(** The world after the calls [cs], made one after the other. *)
Definition replay (cs : list dao_call) (w : world) : world :=
  foldl (λ w c, after uuid_of c w) w cs.

(** How many of the calls [cs] throw. *)
Fixpoint failures (cs : list dao_call) (w : world) : nat :=
  match cs with
  | [] => 0
  | c :: cs =>
    (if thrown uuid_of c w is Some _ then 1 else 0)
    + failures cs (after uuid_of c w)
  end.

(** The calls that leave their id to [uuid.v1()]. *)
Definition draws (c : dao_call) : nat :=
  match c with
  | CallInsert _ None => 1
  | _ => 0
  end.

End Replay.

(** ** A small bucket to run the DAO on *)

Module Sample.

Definition B0 : Backend := MemBackend "default" ∅.

Definition uuid (n : nat) : string := "uuid-" +:+ pretty n.

(** An empty bucket that answers, and one that cannot be reached. *)
Definition up : world (B := B0) :=
  World (B := B0) (Mem.Bucket ∅ None) [] 0.

Definition down : world (B := B0) :=
  World (B := B0) (Mem.Bucket ∅ (Some "connection timed out")) [] 0.

Definition timeout : Mem.error := Mem.Error Mem.Failure "connection timed out".

(** The settings of the specification's example. *)
Definition english : obj :=
  {[ "language" := VStr "en"; "avatar" := VStr "default.png";
     "currencyCode" := VStr "USD"; "currencySymbol" := VStr "$" ]}.

(** A setting as a client sends it back after reading another one: it
    still carries the [id] and [cas] of that other document. *)
Definition echoed : obj :=
  {[ "language" := VStr "en"; "id" := VStr "zzz"; "cas" := VCas 77 ]}.

(** The bucket after [english] was inserted under the id k1. *)
Definition stored : world (B := B0) := (insert uuid english (Some "k1") up).2.

(** What a client sends to [update] after reading k1 at version 1. *)
Definition edited : obj :=
  {[ "id" := VStr "k1"; "cas" := VCas 1; "language" := VStr "en";
     "avatar" := VStr "default.png"; "currencyCode" := VStr "EUR";
     "currencySymbol" := VStr "E"; "type" := VStr "draft" ]}.

(** The bucket after [echoed] was inserted under the id k1. *)
Definition polluted : world (B := B0) := (insert uuid echoed (Some "k1") up).2.

(** Settings and documents of other repositories arriving in turn. *)
Definition arrivals : list arrival :=
  [ Own english None;
    Foreign "e1" {[ "type" := VStr "employee"; "name" := VStr "Ann" ]};
    Own english (Some "k1");
    Foreign "e2" {[ "name" := VStr "untyped" ]};
    Own echoed None ].

Definition crowded : world (B := B0) :=
  default up (arrive_all "default" ∅ uuid arrivals up).

(** A possible life of the bucket. *)
Definition life : list event :=
  [ Called (CallInsert edited None); Outage (Some "connection reset");
    Called (CallInsert english (Some "k1")); Outage None;
    Called (CallInsert english (Some "k1")); Called (CallUpdate edited);
    Called CallFind; Called (CallRemove "k9"); Called (CallFindByID "k1") ].

(** A lower-casing function to run the strategy with: it maps 'A'..'Z' to
    'a'..'z' and keeps every other character, which is what
    [String.prototype.toLowerCase] does on the ASCII emails used below. *)
Definition lower_ascii (a : ascii) : ascii :=
  let n := nat_of_ascii a in
  if (65 <=? n)%nat && (n <=? 90)%nat then ascii_of_nat (n + 32) else a.

Fixpoint lower (s : string) : string :=
  match s with
  | EmptyString => EmptyString
  | String a r => String (lower_ascii a) (lower r)
  end.

(** A user model with one user. *)
Definition findOne (email : string) : string + option string :=
  if decide (email = "ann@example.com") then inr (Some "ann") else inr None.

Definition comparePassword (user password : string) : string + bool :=
  inr (bool_decide (password = "secret")).

End Sample.

(** * Properties *)

Ltac unfold_dao :=
  unfold findByID, find, insert, update, remove, try_catch, bind, ret, throw,
    on_db, logger_error, uuid_v1 in *.

(** ** Failures of the backend, for every implementation of [db] *)

Section Failures.
Context `{B : Backend}.
Variable uuid_of : nat → string.

Lemma thrown_is_translated c w t :
  thrown uuid_of c w = Some t →
  ∃ e, t = handleError e ∧
       log (after uuid_of c w)
       = log w ++ [("DB " +:+ op_name c +:+ " - " +:+ DOC_TYPE +:+ " -", message e)].
Proof.
  destruct c as [id| |doc [id|]|doc|id]; simpl; unfold_dao; simpl.
  - destruct (db_get id (db w)) as [[e|data] s]; simpl; [|done].
    intros [= <-]. by exists e.
  - destruct (db_query _ (db w)) as [[e|rows] s]; simpl; [|done].
    intros [= <-]. by exists e.
  - destruct (db_insert id _ _ (db w)) as [[e|data] s]; simpl; [|done].
    intros [= <-]. by exists e.
  - destruct (db_insert _ _ _ (db w)) as [[e|data] s]; simpl; [|done].
    intros [= <-]. by exists e.
  - destruct (db_replace _ _ _ (db w)) as [[e|data] s]; simpl; [|done].
    intros [= <-]. by exists e.
  - destruct (db_remove id (db w)) as [[e|data] s]; simpl; [|done].
    intros [= <-]. by exists e.
Qed.

Lemma quiet_when_nothing_thrown c w :
  thrown uuid_of c w = None → log (after uuid_of c w) = log w.
Proof.
  destruct c as [id| |doc [id|]|doc|id]; simpl; unfold_dao; simpl.
  - by destruct (db_get id (db w)) as [[e|data] s].
  - by destruct (db_query _ (db w)) as [[e|rows] s].
  - by destruct (db_insert id _ _ (db w)) as [[e|data] s].
  - by destruct (db_insert _ _ _ (db w)) as [[e|data] s].
  - by destruct (db_replace _ _ _ (db w)) as [[e|data] s].
  - by destruct (db_remove id (db w)) as [[e|data] s].
Qed.

(** C8.  Whenever the backend call of one of the five operations fails
    with [e], the operation fails too (the failure is not swallowed): it
    appends exactly one entry to the log, made of the operation name, the
    document type and [e]'s message, and throws [db.handleError(e)].
    Conversely whatever an operation throws is [db.handleError] of some
    backend error, logged by that one entry, and an operation that does
    not throw logs nothing: a caller only ever sees translated errors,
    one per failing call. *)
Theorem backend_failure_logged_once_rethrown_translated
    (w : world) (e : native_error) (s : bstate) :
  (∀ id, db_get id (db w) = (inl e, s) →
     findByID id w
     = (inl (handleError e),
        World s (log w ++ [("DB findByID - setting -", message e)]) (uuid_clock w)))
  ∧ (db_query (N1qlQuery_fromString find_statement) (db w) = (inl e, s) →
     find w
     = (inl (handleError e),
        World s (log w ++ [("DB find - setting -", message e)]) (uuid_clock w)))
  ∧ (∀ doc id,
     db_insert id (set_prop doc "type" (VStr "setting")) durabilityOptions (db w)
     = (inl e, s) →
     insert uuid_of doc (Some id) w
     = (inl (handleError e),
        World s (log w ++ [("DB insert - setting -", message e)]) (uuid_clock w)))
  ∧ (∀ doc,
     db_insert (uuid_of (uuid_clock w)) (set_prop doc "type" (VStr "setting"))
       durabilityOptions (db w)
     = (inl e, s) →
     insert uuid_of doc None w
     = (inl (handleError e),
        World s (log w ++ [("DB insert - setting -", message e)]) (S (uuid_clock w))))
  ∧ (∀ doc,
     db_replace (get_prop doc "id")
       (set_prop (removeMetadataFromDoc doc) "type" (VStr "setting"))
       {[ "cas" := get_prop doc "cas" ]} (db w)
     = (inl e, s) →
     update doc w
     = (inl (handleError e),
        World s (log w ++ [("DB update - setting -", message e)]) (uuid_clock w)))
  ∧ (∀ id, db_remove id (db w) = (inl e, s) →
     remove id w
     = (inl (handleError e),
        World s (log w ++ [("DB remove - setting -", message e)]) (uuid_clock w)))
  ∧ (∀ c t, thrown uuid_of c w = Some t →
     ∃ e', t = handleError e' ∧
           log (after uuid_of c w)
           = log w ++ [("DB " +:+ op_name c +:+ " - setting -", message e')])
  ∧ (∀ c, thrown uuid_of c w = None → log (after uuid_of c w) = log w).
Proof.
  repeat split.
  - intros id H. unfold_dao. by rewrite H.
  - intros H. unfold_dao. by rewrite H.
  - intros doc id H. unfold_dao. simpl. unfold DOC_TYPE. by rewrite H.
  - intros doc H. unfold_dao. simpl. unfold DOC_TYPE. by rewrite H.
  - intros doc H. unfold_dao. unfold DOC_TYPE. by rewrite H.
  - intros id H. unfold_dao. by rewrite H.
  - intros c t H. by apply thrown_is_translated.
  - intros c. apply quiet_when_nothing_thrown.
Qed.

End Failures.

(** ** The DAO over the in-memory bucket *)

Section MemFacts.
Variables (b : string) (d : obj).
Variable uuid_of : nat → string.

Local Abbreviation W := (mem_world b d).
Local Abbreviation mk := (World (B := MemBackend b d)).

Implicit Types (w : W) (doc old fields : obj) (id : string) (c : N).

(** What [update] writes for [doc]. *)
Local Abbreviation payload doc :=
  (set_prop (Mem.removeMetadataFromDoc doc) "type" (VStr "setting")).

Lemma world_eta w : mk (db w) (log w) (uuid_clock w) = w.
Proof. by destruct w. Qed.

Lemma bucket_eta (s : Mem.bucket) : Mem.Bucket (Mem.store s) (Mem.outage s) = s.
Proof. by destruct s. Qed.

Ltac unfold_mem :=
  unfold_dao; simpl;
  unfold Mem.get, Mem.insert, Mem.replace, Mem.remove, Mem.query, Mem.failure,
    throw in *; simpl.

(** *** findByID *)

Lemma findByID_found w id c doc :
  Mem.outage (db w) = None → Mem.store (db w) !! id = Some (c, doc) →
  findByID id w = (inr (assign {[ "id" := VStr id; "cas" := VCas c ]} doc), w).
Proof.
  intros Hup Hid. unfold_mem. rewrite Hup, Hid. simpl. by rewrite world_eta.
Qed.

Lemma findByID_missing w id :
  Mem.outage (db w) = None → Mem.store (db w) !! id = None →
  findByID id w
  = (inl Mem.NotFound,
     mk (db w) (log w ++ [("DB findByID - setting -", "key not found")]) (uuid_clock w)).
Proof. intros Hup Hid. unfold_mem. by rewrite Hup, Hid. Qed.

Lemma findByID_unreachable w id msg :
  Mem.outage (db w) = Some msg →
  findByID id w
  = (inl (Mem.BackendError (Mem.Error Mem.Failure msg)),
     mk (db w) (log w ++ [("DB findByID - setting -", msg)]) (uuid_clock w)).
Proof. intros Hdown. unfold_mem. by rewrite Hdown. Qed.

(** *** insert *)

Lemma insert_fresh w fields id :
  Mem.outage (db w) = None → Mem.store (db w) !! id = None →
  insert uuid_of fields (Some id) w
  = (inr {[ "id" := VStr id; "cas" := VCas 1 ]},
     mk (Mem.Bucket (<[id := (1%N, set_prop fields "type" (VStr "setting"))]>
                         (Mem.store (db w))) None)
        (log w) (uuid_clock w)).
Proof. intros Hup Hid. unfold_mem. by rewrite Hup, Hid. Qed.

Lemma insert_taken w fields id entry :
  Mem.outage (db w) = None → Mem.store (db w) !! id = Some entry →
  insert uuid_of fields (Some id) w
  = (inl Mem.AlreadyExists,
     mk (db w) (log w ++ [("DB insert - setting -", "key already exists")])
        (uuid_clock w)).
Proof. intros Hup Hid. unfold_mem. by rewrite Hup, Hid. Qed.

(** Without an id, [insert] is [insert] under the next UUID. *)
Lemma insert_generated w fields :
  insert uuid_of fields None w
  = insert uuid_of fields (Some (uuid_of (uuid_clock w)))
      (mk (db w) (log w) (S (uuid_clock w))).
Proof. reflexivity. Qed.

Lemma insert_succeeds_inv w fields oid r w' :
  insert uuid_of fields oid w = (inr r, w') →
  let id := default (uuid_of (uuid_clock w)) oid in
  Mem.outage (db w) = None ∧ Mem.store (db w) !! id = None ∧
  r = {[ "id" := VStr id; "cas" := VCas 1 ]} ∧
  Mem.store (db w')
  = <[id := (1%N, set_prop fields "type" (VStr "setting"))]> (Mem.store (db w)) ∧
  Mem.outage (db w') = None ∧ log w' = log w.
Proof.
  destruct oid as [id|]; unfold_mem;
    destruct (Mem.outage (db w)) eqn:Hup; simpl; try done;
    match goal with |- context [Mem.store (db w) !! ?k] =>
      destruct (Mem.store (db w) !! k) eqn:Hid end; simpl; try done;
    intros [= <- <-]; simpl; by rewrite ?Hup.
Qed.

(** A failing [insert] leaves the bucket as it was. *)
Lemma insert_fails_store w fields oid t w' :
  insert uuid_of fields oid w = (inl t, w') → db w' = db w.
Proof.
  destruct oid as [id|]; unfold_mem;
    (destruct (Mem.outage (db w)); simpl; [by intros [= _ <-]|]);
    match goal with |- context [Mem.store (db w) !! ?k] =>
      destruct (Mem.store (db w) !! k) end; simpl; by intros [= _ <-].
Qed.

(** *** update *)

Lemma options_cas (v : jsval) : get_prop {[ "cas" := v ]} "cas" = v.
Proof. unfold get_prop. by rewrite lookup_singleton_eq. Qed.

Lemma update_ok w doc id c old :
  Mem.outage (db w) = None →
  get_prop doc "id" = VStr id → get_prop doc "cas" = VCas c →
  Mem.store (db w) !! id = Some (c, old) →
  update doc w
  = (inr {[ "cas" := VCas (c + 1) ]},
     mk (Mem.Bucket (<[id := ((c + 1)%N, payload doc)]> (Mem.store (db w))) None)
        (log w) (uuid_clock w)).
Proof.
  intros Hup Hdoc Hcas Hid. unfold_mem.
  rewrite Hup, Hdoc, Hid, options_cas, Hcas. simpl.
  by rewrite decide_True.
Qed.

Lemma update_conflict w doc id c old :
  Mem.outage (db w) = None →
  get_prop doc "id" = VStr id → get_prop doc "cas" ≠ VCas c →
  Mem.store (db w) !! id = Some (c, old) →
  update doc w
  = (inl Mem.VersionConflict,
     mk (db w) (log w ++ [("DB update - setting -", "cas mismatch")]) (uuid_clock w)).
Proof.
  intros Hup Hdoc Hcas Hid. unfold_mem.
  rewrite Hup, Hdoc, Hid, options_cas. simpl.
  by rewrite decide_False.
Qed.

Lemma update_missing w doc id :
  Mem.outage (db w) = None →
  get_prop doc "id" = VStr id → Mem.store (db w) !! id = None →
  update doc w
  = (inl Mem.NotFound,
     mk (db w) (log w ++ [("DB update - setting -", "key not found")]) (uuid_clock w)).
Proof. intros Hup Hdoc Hid. unfold_mem. by rewrite Hup, Hdoc, Hid. Qed.

Lemma update_succeeds_inv w doc r w' :
  update doc w = (inr r, w') →
  ∃ id c old,
    get_prop doc "id" = VStr id ∧ get_prop doc "cas" = VCas c ∧
    Mem.outage (db w) = None ∧ Mem.store (db w) !! id = Some (c, old) ∧
    r = {[ "cas" := VCas (c + 1) ]} ∧
    Mem.store (db w') = <[id := ((c + 1)%N, payload doc)]> (Mem.store (db w)) ∧
    Mem.outage (db w') = None ∧ log w' = log w.
Proof.
  unfold_mem. rewrite options_cas.
  destruct (Mem.outage (db w)) eqn:Hup; simpl; [done|].
  destruct (get_prop doc "id") as [| | | |id|] eqn:Hdoc; simpl; try done.
  destruct (Mem.store (db w) !! id) as [[c old]|] eqn:Hid; simpl; [|done].
  case_decide as Hcas; simpl; [|done].
  intros [= <- <-]. by exists id, c, old.
Qed.

(** A failing [update] leaves the bucket as it was. *)
Lemma update_fails_store w doc t w' :
  update doc w = (inl t, w') → db w' = db w.
Proof.
  unfold_mem. rewrite options_cas.
  destruct (Mem.outage (db w)) eqn:Hup; simpl; [by intros [= _ <-]|].
  destruct (get_prop doc "id") as [| | | |id|]; simpl; try by intros [= _ <-].
  destruct (Mem.store (db w) !! id) as [[c old]|]; simpl; [|by intros [= _ <-]].
  case_decide; simpl; [done|by intros [= _ <-]].
Qed.

(** *** remove *)

Lemma remove_present w id entry :
  Mem.outage (db w) = None → Mem.store (db w) !! id = Some entry →
  remove id w
  = (inr (), mk (Mem.Bucket (delete id (Mem.store (db w))) None) (log w) (uuid_clock w)).
Proof. intros Hup Hid. unfold_mem. by rewrite Hup, Hid. Qed.

Lemma remove_missing w id :
  Mem.outage (db w) = None → Mem.store (db w) !! id = None →
  remove id w
  = (inl Mem.NotFound,
     mk (db w) (log w ++ [("DB remove - setting -", "key not found")]) (uuid_clock w)).
Proof. intros Hup Hid. unfold_mem. by rewrite Hup, Hid. Qed.

Lemma remove_succeeds_inv w id w' :
  remove id w = (inr (), w') →
  Mem.outage (db w) = None ∧ is_Some (Mem.store (db w) !! id) ∧
  Mem.store (db w') = delete id (Mem.store (db w)) ∧
  Mem.outage (db w') = None ∧ log w' = log w.
Proof.
  unfold_mem.
  destruct (Mem.outage (db w)) eqn:Hup; simpl; [done|].
  destruct (Mem.store (db w) !! id) eqn:Hid; simpl; [|done].
  intros [= <-]. simpl. eauto.
Qed.

(** *** find *)

Lemma strip_prefix_app (x p s : string) :
  Mem.strip_prefix (x +:+ p) (x +:+ s) = Mem.strip_prefix p s.
Proof. induction x as [|a x IH]; simpl; [done|]. by rewrite decide_True. Qed.

Lemma where_type_find_statement :
  Mem.where_type b (find_statement (B := MemBackend b d)) = Some "setting".
Proof.
  unfold Mem.where_type, find_statement. simpl bucketName.
  change ("SELECT meta().cas, meta().id, `" +:+ b +:+ "`.* FROM `" +:+ b
            +:+ "` WHERE type = '" +:+ DOC_TYPE +:+ "'")
    with ("SELECT meta().cas, meta().id, `" +:+ (b +:+ ("`.* FROM `" +:+ (b
            +:+ ("` WHERE type = '" +:+ "setting'"))))).
  change ("SELECT meta().cas, meta().id, `" +:+ b +:+ "`.* FROM `" +:+ b
            +:+ "` WHERE type = '")
    with ("SELECT meta().cas, meta().id, `" +:+ (b +:+ ("`.* FROM `" +:+ (b
            +:+ ("` WHERE type = '" +:+ EmptyString))))).
  by rewrite !strip_prefix_app.
Qed.

Lemma find_answers w :
  Mem.outage (db w) = None →
  find w
  = (inr (Mem.row_of <$> map_to_list (filter (Mem.has_type "setting") (Mem.store (db w)))),
     w).
Proof.
  intros Hup. unfold_mem. unfold id.
  rewrite Hup, where_type_find_statement. simpl. by rewrite world_eta.
Qed.

Lemma find_unreachable w msg :
  Mem.outage (db w) = Some msg →
  find w
  = (inl (Mem.BackendError (Mem.Error Mem.Failure msg)),
     mk (db w) (log w ++ [("DB find - setting -", msg)]) (uuid_clock w)).
Proof. intros Hdown. unfold_mem. by rewrite Hdown. Qed.

Lemma get_prop_lookup doc (k : string) (v : jsval) :
  doc !! k = Some v → get_prop doc k = v.
Proof. intros H. unfold get_prop. by rewrite H. Qed.

(** *** Writing at a version, removing without one *)

(** C1.  For a document [doc] that carries an id and a version [v] (as a
    read returns them), [update doc] writes only if the version stored for
    that id is [v]: a successful update implies the versions matched, it
    returns a result carrying a new version, different from [v], under
    which the payload is now stored, and any further update that still
    carries the stale [v] fails with VersionConflict.  While the backend
    answers: with matching versions the update succeeds, with a stored
    version other than [v] it fails with VersionConflict, and for an id
    that is not stored it fails with NotFound; a failed update leaves the
    bucket as it was. *)
Theorem update_requires_the_stored_version w doc id (v : jsval) :
  doc !! "id" = Some (VStr id) → doc !! "cas" = Some v →
  (∀ r w', update doc w = (inr r, w') →
     ∃ c old,
       Mem.store (db w) !! id = Some (c, old) ∧ v = VCas c ∧
       r = {[ "cas" := VCas (c + 1) ]} ∧ VCas (c + 1) ≠ v ∧
       Mem.store (db w') !! id = Some ((c + 1)%N, payload doc) ∧
       ∀ doc', doc' !! "id" = Some (VStr id) → doc' !! "cas" = Some v →
               (update doc' w').1 = inl Mem.VersionConflict)
  ∧ (Mem.outage (db w) = None →
     (∀ c old, Mem.store (db w) !! id = Some (c, old) → v = VCas c →
        ∃ r w', update doc w = (inr r, w'))
     ∧ (∀ c old, Mem.store (db w) !! id = Some (c, old) → v ≠ VCas c →
        (update doc w).1 = inl Mem.VersionConflict ∧ db (update doc w).2 = db w)
     ∧ (Mem.store (db w) !! id = None →
        (update doc w).1 = inl Mem.NotFound ∧ db (update doc w).2 = db w)).
Proof.
  intros Hid%get_prop_lookup Hcas%get_prop_lookup. split.
  - intros r w' Hok.
    destruct (update_succeeds_inv _ _ _ _ Hok)
      as (id' & c & old & Hid' & Hcas' & Hup & Hstored & -> & Hstore' & Hup' & _).
    assert (id' = id) as -> by congruence.
    assert (v = VCas c) as -> by congruence.
    exists c, old. repeat split; [done|intros [=]; lia| |].
    + rewrite Hstore'. apply lookup_insert_eq.
    + intros doc' Hid2%get_prop_lookup Hcas2%get_prop_lookup.
      rewrite (update_conflict w' doc' id (c + 1) (payload doc)); [done|done|done| |].
      * rewrite Hcas2. intros [=]; lia.
      * rewrite Hstore'. apply lookup_insert_eq.
  - intros Hup. repeat split.
    + intros c old Hstored ->. erewrite update_ok; eauto.
    + erewrite update_conflict; eauto. congruence.
    + erewrite update_conflict; eauto. congruence.
    + erewrite update_missing; eauto.
    + erewrite update_missing; eauto.
Qed.

(** C7.  [remove id] takes no version and deletes whatever version is
    stored: while the backend answers, it succeeds for a stored document
    of any version [c] and fails with NotFound when no document is stored
    under [id]; after every successful [remove id], [findByID id] fails
    with NotFound. *)
Theorem remove_is_unconditional w id :
  (Mem.outage (db w) = None →
   (∀ c doc, Mem.store (db w) !! id = Some (c, doc) →
      ∃ w', remove id w = (inr (), w') ∧ Mem.store (db w') !! id = None)
   ∧ (Mem.store (db w) !! id = None → (remove id w).1 = inl Mem.NotFound))
  ∧ (∀ w', remove id w = (inr (), w') → (findByID id w').1 = inl Mem.NotFound).
Proof.
  split; [intros Hup; split|].
  - intros c doc Hid. eexists. split; [by eapply remove_present|].
    simpl. apply lookup_delete_eq.
  - intros Hid. by rewrite remove_missing.
  - intros w' (_ & _ & Hstore & Hup' & _)%remove_succeeds_inv.
    rewrite findByID_missing; [done|done|].
    rewrite Hstore. apply lookup_delete_eq.
Qed.

(** *** What is written *)

(** The sibling of [insert]: what [update] writes has neither an [id] nor
    a [cas] field. *)
Lemma update_strips_metadata w doc r w' :
  update doc w = (inr r, w') →
  ∃ id c stored,
    get_prop doc "id" = VStr id ∧ Mem.store (db w') !! id = Some (c, stored) ∧
    stored !! "id" = None ∧ stored !! "cas" = None.
Proof.
  intros (id & c & old & Hid & _ & _ & _ & _ & Hstore' & _)%update_succeeds_inv.
  exists id, (c + 1)%N, (payload doc). split; [done|]. split.
  - rewrite Hstore'. apply lookup_insert_eq.
  - unfold set_prop, Mem.removeMetadataFromDoc, delete_prop.
    split; by simplify_map_eq.
Qed.

Lemma after_preserves_settings (call : dao_call) w :
  all_settings b d w → all_settings b d (after uuid_of call w).
Proof.
  unfold all_settings. intros Hall.
  destruct call as [id| |doc oid|doc|id]; simpl.
  - unfold_mem. repeat case_match; by simplify_eq/=.
  - unfold_mem. repeat case_match; by simplify_eq/=.
  - destruct (insert uuid_of doc oid w) as [[t|r] w'] eqn:Hins; simpl.
    + by rewrite (insert_fails_store _ _ _ _ _ Hins).
    + apply insert_succeeds_inv in Hins as (_ & _ & _ & -> & _).
      apply map_Forall_insert_2; [|done]. apply lookup_insert_eq.
  - destruct (update doc w) as [[t|r] w'] eqn:Hupd; simpl.
    + by rewrite (update_fails_store _ _ _ _ Hupd).
    + apply update_succeeds_inv in Hupd as (id & c & old & _ & _ & _ & _ & _ & -> & _).
      apply map_Forall_insert_2; [|done]. apply lookup_insert_eq.
  - unfold_mem. repeat case_match; simplify_eq/=; try done.
    by apply map_Forall_delete.
Qed.

Lemma history_preserves_settings (es : list event) w :
  all_settings b d w → all_settings b d (history b d uuid_of es w).
Proof.
  revert w. induction es as [|[call|o] es IH]; intros w Hall; simpl; [done| |].
  - apply IH. by apply after_preserves_settings.
  - by apply IH.
Qed.

(** C3.  Whatever the payload, and whatever [type] it came with, the
    document that a successful [insert] or [update] stores has [type]
    'setting'; and these writes do happen: while the backend answers, an
    [insert] under a free id and an [update] at the stored version succeed
    and store the payload with [type] 'setting'.  Hence a bucket in which
    every document has the type of the settings (an empty one in
    particular) stays so through every history of DAO calls and outages. *)
Theorem written_type_is_the_discriminator w :
  (∀ fields oid r w', insert uuid_of fields oid w = (inr r, w') →
     ∃ id stored,
       r !! "id" = Some (VStr id) ∧ Mem.store (db w') !! id = Some (1%N, stored) ∧
       stored = <["type" := VStr "setting"]> fields ∧
       stored !! "type" = Some (VStr "setting"))
  ∧ (∀ doc r w', update doc w = (inr r, w') →
     ∃ id c stored,
       get_prop doc "id" = VStr id ∧ Mem.store (db w') !! id = Some (c, stored) ∧
       stored = <["type" := VStr "setting"]> (Mem.removeMetadataFromDoc doc) ∧
       stored !! "type" = Some (VStr "setting"))
  ∧ (∀ es, all_settings b d w →
       ∀ id c stored, Mem.store (db (history b d uuid_of es w)) !! id = Some (c, stored) →
                      stored !! "type" = Some (VStr "setting"))
  ∧ (Mem.store (db w) = ∅ → ∀ es, all_settings b d (history b d uuid_of es w))
  ∧ (Mem.outage (db w) = None →
     ∀ fields oid,
       Mem.store (db w) !! default (uuid_of (uuid_clock w)) oid = None →
       ∃ r w' stored,
         insert uuid_of fields oid w = (inr r, w') ∧
         Mem.store (db w') !! default (uuid_of (uuid_clock w)) oid
         = Some (1%N, stored) ∧
         stored = <["type" := VStr "setting"]> fields ∧
         stored !! "type" = Some (VStr "setting"))
  ∧ (Mem.outage (db w) = None →
     ∀ doc id c old,
       get_prop doc "id" = VStr id → get_prop doc "cas" = VCas c →
       Mem.store (db w) !! id = Some (c, old) →
       ∃ r w' stored,
         update doc w = (inr r, w') ∧
         Mem.store (db w') !! id = Some ((c + 1)%N, stored) ∧
         stored = <["type" := VStr "setting"]> (Mem.removeMetadataFromDoc doc) ∧
         stored !! "type" = Some (VStr "setting")).
Proof.
  split; [|split; [|split; [|split; [|split]]]].
  - intros fields oid r w' (_ & _ & -> & -> & _)%insert_succeeds_inv.
    eexists _, _. split; [apply lookup_insert_eq|]. split; [apply lookup_insert_eq|].
    split; [done|apply lookup_insert_eq].
  - intros doc r w' (id & c & old & Hid & _ & _ & _ & _ & -> & _)%update_succeeds_inv.
    eexists id, _, _. split; [done|]. split; [apply lookup_insert_eq|].
    split; [done|apply lookup_insert_eq].
  - intros es Hall id c stored Hid.
    by apply (history_preserves_settings es w Hall id (c, stored)).
  - intros Hempty es. apply history_preserves_settings.
    unfold all_settings. rewrite Hempty. apply map_Forall_empty.
  - intros Hup fields oid Hfree.
    destruct oid as [id|]; simpl in *; eexists _, _, _;
      (split; [first [by apply insert_fresh
                     |rewrite insert_generated; by apply insert_fresh]|]);
      simpl; (split; [apply lookup_insert_eq|]); split; [done| |done|];
      apply lookup_insert_eq.
  - intros Hup doc id c old Hid Hcas Hstored. eexists _, _, _.
    split; [by eapply update_ok|].
    simpl. split; [apply lookup_insert_eq|]. split; [done|apply lookup_insert_eq].
Qed.

(** *** What is read back *)

Lemma assign_lookup_source (target source : obj) (k : string) (v : jsval) :
  source !! k = Some v → assign target source !! k = Some v.
Proof. intros H. unfold assign. by apply lookup_union_Some_l. Qed.

Lemma assign_lookup_target (target source : obj) (k : string) :
  source !! k = None → assign target source !! k = target !! k.
Proof. intros H. unfold assign. by apply lookup_union_r. Qed.

(** C9.  [findByID] lays the stored value over [{id, cas}]: a stored [id]
    or [cas] field wins over the attached metadata, and the metadata shows
    only for the keys the stored document lacks.  Such documents are
    written by [insert], which stores the payload's own [id] and [cas]
    fields, so that after an insert under [id] the read under [id] returns
    the payload's [id] and [cas] instead of [id] and the version the
    backend assigned (the one [insert] returned); for a free [id] there is
    a payload with which both differ. *)
Theorem stored_fields_override_attached_metadata w id :
  (∀ c doc, Mem.outage (db w) = None → Mem.store (db w) !! id = Some (c, doc) →
     ∃ r, findByID id w = (inr r, w) ∧
          r = assign {[ "id" := VStr id; "cas" := VCas c ]} doc ∧
          (∀ v, doc !! "id" = Some v → r !! "id" = Some v) ∧
          (∀ v, doc !! "cas" = Some v → r !! "cas" = Some v) ∧
          (doc !! "id" = None → r !! "id" = Some (VStr id)) ∧
          (doc !! "cas" = None → r !! "cas" = Some (VCas c)))
  ∧ (∀ fields r0 w', insert uuid_of fields (Some id) w = (inr r0, w') →
     ∃ c r, r0 !! "cas" = Some (VCas c) ∧
            Mem.get id (db w') = (inr (GetResult (VCas c) (set_prop fields "type" (VStr "setting"))), db w') ∧
            findByID id w' = (inr r, w') ∧
            (∀ v, fields !! "id" = Some v → r !! "id" = Some v) ∧
            (∀ v, fields !! "cas" = Some v → r !! "cas" = Some v))
  ∧ (Mem.outage (db w) = None → Mem.store (db w) !! id = None →
     ∃ fields r0 w' c r,
       insert uuid_of fields (Some id) w = (inr r0, w') ∧
       r0 !! "cas" = Some (VCas c) ∧ findByID id w' = (inr r, w') ∧
       r !! "id" ≠ Some (VStr id) ∧ r !! "cas" ≠ Some (VCas c)).
Proof.
  split; [|split].
  - intros c doc Hup Hid. eexists. split; [by apply findByID_found|].
    split; [done|].
    repeat split; intros; first [by apply assign_lookup_source|by rewrite assign_lookup_target].
  - intros fields r0 w' (Hup & Hfree & -> & Hstore & Hup' & _)%insert_succeeds_inv.
    simpl in *.
    assert (Mem.store (db w') !! id = Some (1%N, set_prop fields "type" (VStr "setting")))
      as Hid by (rewrite Hstore; apply lookup_insert_eq).
    exists 1%N. eexists. split; [done|]. split.
    { unfold Mem.get. by rewrite Hup', Hid. }
    split; [by apply findByID_found|].
    split; intros v Hv; apply assign_lookup_source; unfold set_prop;
      by rewrite lookup_insert_ne.
  - intros Hup Hfree.
    exists {[ "id" := VNum 0; "cas" := VNum 0 ]}. do 2 eexists. exists 1%N. eexists.
    split; [by apply insert_fresh|]. split; [done|].
    split; [apply findByID_found; [done|apply lookup_insert_eq]|].
    split.
    + erewrite assign_lookup_source; [|done]. done.
    + erewrite assign_lookup_source; [|done]. done.
Qed.

(** *** Identifiers *)

Lemma after_clock (call : dao_call) w :
  (uuid_clock w ≤ uuid_clock (after uuid_of call w))%nat.
Proof.
  destruct call as [id| |doc [id|]|doc|id]; simpl; unfold_mem;
    repeat case_match; simplify_eq/=; lia.
Qed.

Lemma history_clock (es : list event) w :
  (uuid_clock w ≤ uuid_clock (history b d uuid_of es w))%nat.
Proof.
  revert w. induction es as [|[call|o] es IH]; intros w; simpl; [done| |].
  - etrans; [apply (after_clock call)|apply IH].
  - etrans; [|apply IH]. done.
Qed.

Lemma insert_clock w fields r w' :
  insert uuid_of fields None w = (inr r, w') → uuid_clock w' = S (uuid_clock w).
Proof. unfold_mem. repeat case_match; simplify_eq/=; try done. by intros [= <- <-]. Qed.

(** C5, as the code has it.  A successful [insert] returns what [db.insert]
    answered with the id attached: exactly the id and the initial version
    (1) of the document it wrote, neither its type nor its fields; the
    payload, with its type set, is stored under that id at that version,
    and the id was free before.  The id is the caller's when given and
    otherwise the next one of [uuid.v1()]; it is not checked against the
    bucket: while the backend answers, the insert succeeds when the id is
    free and fails with AlreadyExists when it is taken, generated or not.
    Later inserts without id use later values of the generator.  A second
    [insert] under an explicit id that was just inserted fails with
    AlreadyExists. *)
Theorem insert_returns_id_and_initial_version w fields :
  (∀ oid r w', insert uuid_of fields oid w = (inr r, w') →
     let id := default (uuid_of (uuid_clock w)) oid in
     r = {[ "id" := VStr id; "cas" := VCas 1 ]} ∧
     (∀ k, k ≠ "id" → k ≠ "cas" → r !! k = None) ∧
     Mem.store (db w) !! id = None ∧
     Mem.store (db w') !! id = Some (1%N, set_prop fields "type" (VStr "setting")))
  ∧ (Mem.outage (db w) = None →
     ∀ oid,
       let id := default (uuid_of (uuid_clock w)) oid in
       (Mem.store (db w) !! id = None →
        ∃ r w', insert uuid_of fields oid w = (inr r, w'))
       ∧ (is_Some (Mem.store (db w) !! id) →
          (insert uuid_of fields oid w).1 = inl Mem.AlreadyExists))
  ∧ (∀ r w1 es fields' r' w2,
       insert uuid_of fields None w = (inr r, w1) →
       insert uuid_of fields' None (history b d uuid_of es w1) = (inr r', w2) →
       ∃ n, (uuid_clock w < n)%nat ∧
            r !! "id" = Some (VStr (uuid_of (uuid_clock w))) ∧
            r' !! "id" = Some (VStr (uuid_of n)))
  ∧ (∀ id r w' fields',
       insert uuid_of fields (Some id) w = (inr r, w') →
       (insert uuid_of fields' (Some id) w').1 = inl Mem.AlreadyExists).
Proof.
  split; [|split; [|split]].
  - intros oid r w' (_ & Hfree & -> & -> & _)%insert_succeeds_inv.
    split; [done|]. split; [|split; [done|apply lookup_insert_eq]].
    intros k Hid Hcas. by rewrite lookup_insert_ne, lookup_singleton_ne.
  - intros Hup oid. destruct oid as [id|]; simpl; split.
    + intros Hfree. eexists _, _. by apply insert_fresh.
    + intros [entry Htaken]. by erewrite insert_taken.
    + intros Hfree. eexists _, _. rewrite insert_generated. by apply insert_fresh.
    + intros [entry Htaken]. rewrite insert_generated. by erewrite insert_taken.
  - intros r w1 es fields' r' w2 Hfirst Hlater.
    pose proof (insert_clock _ _ _ _ Hfirst) as Hclock.
    pose proof (history_clock es w1) as Hmono.
    apply insert_succeeds_inv in Hfirst as (_ & _ & -> & _).
    apply insert_succeeds_inv in Hlater as (_ & _ & -> & _).
    exists (uuid_clock (history b d uuid_of es w1)). simpl.
    split; [lia|]. by rewrite !lookup_insert_eq.
  - intros id r w' fields' (_ & _ & _ & Hstore & Hup' & _)%insert_succeeds_inv.
    erewrite insert_taken; [done|done|].
    simpl in Hstore. rewrite Hstore. apply lookup_insert_eq.
Qed.

(** *** find *)

Lemma size_settings_insert (m : gmap string (N * obj)) id c doc :
  m !! id = None →
  size (filter (Mem.has_type "setting") (<[id := (c, doc)]> m))
  = if decide (doc !! "type" = Some (VStr "setting"))
    then S (size (filter (Mem.has_type "setting") m))
    else size (filter (Mem.has_type "setting") m).
Proof.
  intros Hfree. case_decide as Hty.
  - rewrite map_filter_insert_True by done.
    apply map_size_insert_None. by rewrite map_lookup_filter, Hfree.
  - rewrite map_filter_insert_False by done. by rewrite delete_id.
Qed.

Lemma arrive_inv (a : arrival) w w' :
  arrive b d uuid_of a w = Some w' →
  ∃ id doc,
    Mem.store (db w) !! id = None ∧
    Mem.store (db w') = <[id := (1%N, doc)]> (Mem.store (db w)) ∧
    Mem.outage (db w') = None ∧
    match a with
    | Own _ _ => doc !! "type" = Some (VStr "setting")
    | Foreign _ doc' => doc = doc'
    end.
Proof.
  destruct a as [fields oid|id doc]; simpl.
  - destruct (insert uuid_of fields oid w) as [[t|r] w1] eqn:Hins; [done|].
    intros [= <-].
    apply insert_succeeds_inv in Hins as (_ & Hfree & _ & Hstore & Hup & _).
    eexists _, _. split; [done|]. split; [done|]. split; [done|].
    apply lookup_insert_eq.
  - unfold_mem.
    destruct (Mem.outage (db w)) eqn:Hup; simpl; [done|].
    destruct (Mem.store (db w) !! id) eqn:Hid; simpl; [done|].
    intros [= <-]. by exists id, doc.
Qed.

Lemma arrive_all_settings (l : list arrival) w w' :
  Forall of_other_type l → arrive_all b d uuid_of l w = Some w' →
  size (filter (Mem.has_type "setting") (Mem.store (db w')))
  = size (filter (Mem.has_type "setting") (Mem.store (db w)))
    + length (List.filter is_own l)
  ∧ Mem.outage (db w') = (if l is [] then Mem.outage (db w) else None).
Proof.
  revert w. induction l as [|a l IH]; intros w Hother; simpl.
  - intros [= <-]. split; [lia|done].
  - destruct (arrive b d uuid_of a w) as [w1|] eqn:Harrive; simpl; [|done].
    intros Hrest. apply Forall_cons in Hother as [Ha Hl].
    destruct (IH w1 Hl Hrest) as [Hsize Hup].
    apply arrive_inv in Harrive as (id & doc & Hfree & Hstore & Hup1 & Hdoc).
    split.
    + rewrite Hsize, Hstore, size_settings_insert by done.
      destruct a as [fields oid|id' doc']; simpl in *.
      * rewrite decide_True by done. lia.
      * subst doc'. unfold DOC_TYPE in Ha. rewrite decide_False by done. lia.
    + rewrite Hup. by destruct l.
Qed.

(** C6.  While the backend answers, [find] returns the documents of the
    bucket whose type is 'setting', all of them and no other, each once.
    So after N documents arrived through [insert] of this DAO and M
    documents of other types were written to the empty bucket by other
    repositories, in any order, it returns exactly N documents.  When the
    query fails, [find] fails with BackendError. *)
Theorem find_returns_the_settings :
  (∀ w, Mem.outage (db w) = None →
     ∃ rows,
       find w = (inr rows, w) ∧
       (∀ ρ, ρ ∈ rows ↔
             ∃ c, row_cas ρ = VCas c ∧
                  Mem.store (db w) !! row_id ρ = Some (c, row_fields ρ) ∧
                  row_fields ρ !! "type" = Some (VStr "setting")) ∧
       NoDup (row_id <$> rows))
  ∧ (∀ l w w',
       Mem.store (db w) = ∅ → Mem.outage (db w) = None →
       Forall of_other_type l → arrive_all b d uuid_of l w = Some w' →
       ∃ rows, find w' = (inr rows, w') ∧ length rows = length (List.filter is_own l))
  ∧ (∀ w msg, Mem.outage (db w) = Some msg →
       (find w).1 = inl (Mem.BackendError (Mem.Error Mem.Failure msg))).
Proof.
  split; [|split].
  - intros w Hup. eexists. split; [by apply find_answers|]. split.
    + intros [id cas doc]. rewrite list_elem_of_fmap. split.
      * intros ([id' [c doc']] & [= -> -> ->] & Hin).
        apply elem_of_map_to_list, map_lookup_filter_Some in Hin as [Hid Hty].
        by exists c.
      * simpl. intros (c & -> & Hid & Hty).
        exists (id, (c, doc)). split; [done|].
        by apply elem_of_map_to_list, map_lookup_filter_Some.
    + rewrite <- list_fmap_compose.
      apply (NoDup_fst_map_to_list (filter (Mem.has_type "setting") (Mem.store (db w)))).
  - intros l w w' Hempty Hup Hother Harrive.
    destruct (arrive_all_settings l w w' Hother Harrive) as [Hsize Hup'].
    eexists. split.
    + apply find_answers. rewrite Hup'. by destruct l.
    + rewrite length_fmap, length_map_to_list, Hsize, Hempty.
      by rewrite map_filter_empty, map_size_empty.
  - intros w msg Hdown. by rewrite (find_unreachable w msg).
Qed.

End MemFacts.

(** ** The local strategy *)

Section LocalStrategyFacts.
Context {User Err : Type}.
Variable toLowerCase : string → string.
Variable findOne : string → Err + option User.
Variable comparePassword : User → string → Err + bool.

Lemma verify_requests (email password : string) :
  (perform findOne comparePassword (verify toLowerCase email password)).1
  = ReqFindOne (toLowerCase email)
    :: match findOne (toLowerCase email) with
       | inr (Some user) => [ReqComparePassword user password]
       | _ => []
       end.
Proof.
  simpl. destruct (findOne (toLowerCase email)) as [err|[user|]]; simpl; try done.
  by destruct (comparePassword user password) as [err|[|]].
Qed.

(** C10.  Every attempt starts with the lookup of the lower-cased email,
    whatever [toLowerCase] makes of it.  When the lookup finds no user, the
    attempt fails with 'This email is not registered.' and the lookup is
    the only request made: comparePassword is not invoked.  A request to
    comparePassword is made only for the user that the lookup found, with
    the supplied password; when it answers that the password does not
    match, the attempt fails with 'This password is not correct.', which
    is a different message. *)
Theorem unknown_email_fails_without_comparing_passwords (email password : string) :
  (∃ k, verify (User := User) (Err := Err) toLowerCase email password
        = FindOne (toLowerCase email) k)
  ∧ (findOne (toLowerCase email) = inr None →
     perform findOne comparePassword (verify toLowerCase email password)
     = ([ReqFindOne (toLowerCase email)], CbFail "This email is not registered."))
  ∧ (∀ q, q ∈ (perform findOne comparePassword (verify toLowerCase email password)).1 →
          is_compare q = true →
          ∃ user, findOne (toLowerCase email) = inr (Some user) ∧
                  q = ReqComparePassword user password)
  ∧ (∀ user, findOne (toLowerCase email) = inr (Some user) →
             comparePassword user password = inr false →
     perform findOne comparePassword (verify toLowerCase email password)
     = ([ReqFindOne (toLowerCase email); ReqComparePassword user password],
        CbFail "This password is not correct."))
  ∧ "This email is not registered." ≠ "This password is not correct.".
Proof.
  split; [by eexists|].
  split; [|split; [|split]].
  - intros Hnone. simpl. by rewrite Hnone.
  - intros q. rewrite verify_requests.
    destruct (findOne (toLowerCase email)) as [err|[user|]];
      rewrite ?elem_of_cons, ?elem_of_nil; intros Hq Hcmp.
    + by destruct Hq as [->|[]].
    + exists user. by destruct Hq as [->|[->|[]]].
    + by destruct Hq as [->|[]].
  - intros user Hfound Hwrong. simpl. rewrite Hfound. simpl. by rewrite Hwrong.
  - done.
Qed.

End LocalStrategyFacts.

(** ** The DAO on the example bucket *)

(** C2, at a payload that carries [id] and [cas] fields: [insert] stores
    both fields with the document, where [update] strips them. *)
Theorem insert_stores_id_and_cas_of_the_payload :
  ∃ stored,
    Mem.store (db (insert Sample.uuid Sample.echoed (Some "k1") Sample.up).2) !! "k1"
    = Some (1%N, stored)
    ∧ stored !! "id" = Some (VStr "zzz") ∧ stored !! "cas" = Some (VCas 77).
Proof. eexists. split; [reflexivity|]. split; reflexivity. Qed.

(** C4, at a document stored with [id] and [cas] fields of its own: the
    object that [findByID "k1"] returns has the stored [id] and [cas], not
    "k1" and the version 1 that the backend reports for k1. *)
Theorem findByID_returns_the_stored_id_and_cas :
  ∃ r stored,
    findByID "k1" Sample.polluted = (inr r, Sample.polluted)
    ∧ Mem.get "k1" (db Sample.polluted)
      = (inr (GetResult (VCas 1) stored), db Sample.polluted)
    ∧ r !! "id" = Some (VStr "zzz") ∧ r !! "cas" = Some (VCas 77)
    ∧ r !! "id" ≠ Some (VStr "k1") ∧ r !! "cas" ≠ Some (VCas 1).
Proof.
  eexists _, _. split; [reflexivity|]. split; [reflexivity|].
  split; [reflexivity|]. split; [reflexivity|]. split; discriminate.
Qed.

(** C8 at an unreachable bucket: all five operations fail with the
    translated timeout and log it once. *)
Lemma backend_failure_witness :
  findByID "k1" Sample.down
  = (inl (Mem.BackendError Sample.timeout),
     World (B := Sample.B0) (db Sample.down)
       [("DB findByID - setting -", "connection timed out")] 0)
  ∧ (find Sample.down).1 = inl (Mem.BackendError Sample.timeout)
  ∧ (insert Sample.uuid Sample.english (Some "k1") Sample.down).1
    = inl (Mem.BackendError Sample.timeout)
  ∧ (insert Sample.uuid Sample.english None Sample.down).1
    = inl (Mem.BackendError Sample.timeout)
  ∧ (update Sample.echoed Sample.down).1 = inl (Mem.BackendError Sample.timeout)
  ∧ remove "k1" Sample.down
    = (inl (Mem.BackendError Sample.timeout),
       World (B := Sample.B0) (db Sample.down)
         [("DB remove - setting -", "connection timed out")] 0)
  ∧ log (after Sample.uuid CallFind Sample.down)
    = [("DB find - setting -", "connection timed out")]
  ∧ log (after Sample.uuid (CallInsert Sample.english None) Sample.up) = [].
Proof.
  destruct (backend_failure_logged_once_rethrown_translated (B := Sample.B0)
              Sample.uuid Sample.down Sample.timeout (db Sample.down))
    as (Hget & Hquery & Hinsert & Hinsert' & Hreplace & Hremove & Hthrown & _).
  destruct (backend_failure_logged_once_rethrown_translated (B := Sample.B0)
              Sample.uuid Sample.up Sample.timeout (db Sample.up))
    as (_ & _ & _ & _ & _ & _ & _ & Hquiet).
  refine (conj (Hget "k1" eq_refl) (conj (f_equal fst (Hquery eq_refl))
           (conj (f_equal fst (Hinsert Sample.english "k1" eq_refl))
           (conj (f_equal fst (Hinsert' Sample.english eq_refl))
           (conj (f_equal fst (Hreplace Sample.echoed eq_refl))
           (conj (Hremove "k1" eq_refl) (conj _
             (Hquiet (CallInsert Sample.english None) eq_refl)))))))).
  destruct (Hthrown CallFind (Mem.BackendError Sample.timeout) eq_refl)
    as ([[] msg] & Ht & Hlog); try discriminate Ht.
  injection Ht as <-. exact Hlog.
Defined.

Lemma example_uuid_inj (m n : nat) : Sample.uuid m = Sample.uuid n → m = n.
Proof. unfold Sample.uuid. simpl. intros [= H]. by apply (inj pretty). Qed.

(** C1 on the example: k1 is stored at version 1 and [edited] carries
    version 1. *)
Lemma update_requires_the_stored_version_witness :
  (∃ r w', update Sample.edited Sample.stored = (inr r, w'))
  ∧ (update Sample.edited (update Sample.edited Sample.stored).2).1
    = inl Mem.VersionConflict
  ∧ (update Sample.edited Sample.up).1 = inl Mem.NotFound.
Proof.
  destruct (update_requires_the_stored_version "default" ∅ Sample.stored
              Sample.edited "k1" (VCas 1) eq_refl eq_refl) as [Hs Hup].
  destruct (update_requires_the_stored_version "default" ∅ Sample.up
              Sample.edited "k1" (VCas 1) eq_refl eq_refl) as [_ Hup0].
  destruct (Hs _ _ eq_refl) as (c & old & _ & _ & _ & _ & _ & Hstale).
  destruct (Hup eq_refl) as (Hok & _ & _).
  destruct (Hup0 eq_refl) as (_ & _ & Hmiss).
  exact (conj (Hok 1%N _ eq_refl eq_refl)
           (conj (Hstale Sample.edited eq_refl eq_refl) (proj1 (Hmiss eq_refl)))).
Defined.

(** C7 on the example. *)
Lemma remove_is_unconditional_witness :
  (∃ w', remove "k1" Sample.stored = (inr (), w') ∧ Mem.store (db w') !! "k1" = None)
  ∧ (remove "k1" Sample.up).1 = inl Mem.NotFound
  ∧ (findByID "k1" (remove "k1" Sample.stored).2).1 = inl Mem.NotFound.
Proof.
  destruct (remove_is_unconditional "default" ∅ Sample.stored "k1") as [Hup Hafter].
  destruct (remove_is_unconditional "default" ∅ Sample.up "k1") as [Hup0 _].
  exact (conj (proj1 (Hup eq_refl) 1%N _ eq_refl)
           (conj (proj2 (Hup0 eq_refl) eq_refl) (Hafter _ eq_refl))).
Defined.

(** C3 on the example: a payload of type 'draft' is inserted as a setting,
    the update of k1 at its stored version with a document of type 'draft'
    succeeds and stores a setting, and the bucket holds only settings at
    the end of [Sample.life]. *)
Lemma written_type_is_the_discriminator_witness :
  (∃ id stored,
     Mem.store (db (insert Sample.uuid Sample.edited (Some "k2") Sample.up).2) !! id
     = Some (1%N, stored)
     ∧ stored !! "type" = Some (VStr "setting"))
  ∧ all_settings "default" ∅ (history "default" ∅ Sample.uuid Sample.life Sample.up)
  ∧ Sample.edited !! "type" = Some (VStr "draft")
  ∧ (∃ r w' stored,
       update Sample.edited Sample.stored = (inr r, w')
       ∧ Mem.store (db w') !! "k1" = Some (2%N, stored)
       ∧ stored !! "type" = Some (VStr "setting"))
  ∧ (∃ r w' stored,
       insert Sample.uuid Sample.edited None Sample.stored = (inr r, w')
       ∧ Mem.store (db w') !! "uuid-0" = Some (1%N, stored)
       ∧ stored !! "type" = Some (VStr "setting")).
Proof.
  destruct (written_type_is_the_discriminator "default" ∅ Sample.uuid Sample.up)
    as (Hinsert & _ & _ & Hlife & _ & _).
  destruct (written_type_is_the_discriminator "default" ∅ Sample.uuid Sample.stored)
    as (_ & _ & _ & _ & Hinserts & Hupdates).
  destruct (Hinsert Sample.edited (Some "k2") _ _ eq_refl)
    as (id & stored & _ & Hstored & _ & Htype).
  destruct (Hupdates eq_refl Sample.edited "k1" 1%N _ eq_refl eq_refl eq_refl)
    as (r & w' & updated & Hupdate & Hupdated & _ & Hutype).
  destruct (Hinserts eq_refl Sample.edited None eq_refl)
    as (r2 & w2 & inserted & Hins & Hinserted & _ & Hitype).
  exact (conj (ex_intro _ id (ex_intro _ stored (conj Hstored Htype)))
           (conj (Hlife eq_refl Sample.life)
              (conj eq_refl
                 (conj (ex_intro _ r (ex_intro _ w' (ex_intro _ updated
                          (conj Hupdate (conj Hupdated Hutype)))))
                       (ex_intro _ r2 (ex_intro _ w2 (ex_intro _ inserted
                          (conj Hins (conj Hinserted Hitype))))))))).
Defined.

(** C5 as stated fails on the example: the object that [insert] returns
    for the settings [english] has neither their type nor their language,
    which the stored document has; and after a document was stored under
    the id that the generator issues next, the insert without id is
    refused: the generated id was not a fresh one. *)
Lemma insert_result_is_not_the_written_document :
  ((insert Sample.uuid Sample.english (Some "k1") Sample.up).1
   = inr {[ "id" := VStr "k1"; "cas" := VCas 1 ]}
   ∧ ({[ "id" := VStr "k1"; "cas" := VCas 1 ]} : obj) !! "type" = None
   ∧ ({[ "id" := VStr "k1"; "cas" := VCas 1 ]} : obj) !! "language" = None
   ∧ ∃ stored,
       Mem.store (db (insert Sample.uuid Sample.english (Some "k1") Sample.up).2) !! "k1"
       = Some (1%N, stored)
       ∧ stored !! "type" = Some (VStr "setting")
       ∧ stored !! "language" = Some (VStr "en")
       ∧ ¬ (∀ k v, stored !! k = Some v →
                   ({[ "id" := VStr "k1"; "cas" := VCas 1 ]} : obj) !! k = Some v))
  ∧ ((insert Sample.uuid Sample.english (Some "uuid-0") Sample.up).1
     = inr {[ "id" := VStr "uuid-0"; "cas" := VCas 1 ]}
     ∧ Sample.uuid
         (uuid_clock (insert Sample.uuid Sample.english (Some "uuid-0") Sample.up).2)
       = "uuid-0"
     ∧ (insert Sample.uuid Sample.english None
          (insert Sample.uuid Sample.english (Some "uuid-0") Sample.up).2).1
       = inl Mem.AlreadyExists).
Proof.
  split.
  - split; [reflexivity|]. split; [reflexivity|]. split; [reflexivity|].
    eexists. split; [reflexivity|]. split; [reflexivity|]. split; [reflexivity|].
    intros Hall. by specialize (Hall "language" (VStr "en") eq_refl).
  - split; [reflexivity|]. split; reflexivity.
Qed.

(** C5, as the code has it, on the example. *)
Lemma insert_returns_id_and_initial_version_witness :
  (∃ r w', insert Sample.uuid Sample.english None Sample.up = (inr r, w')
           ∧ r = {[ "id" := VStr "uuid-0"; "cas" := VCas 1 ]}
           ∧ r !! "language" = None
           ∧ Mem.store (db w') !! "uuid-0"
             = Some (1%N, set_prop Sample.english "type" (VStr "setting")))
  ∧ (∃ n r r' w1 w2,
       insert Sample.uuid Sample.english None Sample.up = (inr r, w1)
       ∧ insert Sample.uuid Sample.english None w1 = (inr r', w2)
       ∧ (0 < n)%nat
       ∧ r !! "id" = Some (VStr (Sample.uuid 0))
       ∧ r' !! "id" = Some (VStr (Sample.uuid n)))
  ∧ (insert Sample.uuid Sample.echoed (Some "k1") Sample.stored).1
    = inl Mem.AlreadyExists
  ∧ (insert Sample.uuid Sample.english (Some "k1") Sample.stored).1
    = inl Mem.AlreadyExists.
Proof.
  destruct (insert_returns_id_and_initial_version "default" ∅ Sample.uuid
              Sample.up Sample.english) as (Hwritten & Hup & Hlater & Htwice).
  destruct (insert_returns_id_and_initial_version "default" ∅ Sample.uuid
              Sample.stored Sample.echoed) as (_ & Hstored & _ & _).
  destruct (Hup eq_refl None) as [Hfree _].
  destruct (Hfree eq_refl) as (r & w' & Hins).
  destruct (Hwritten None r w' Hins) as (Hr & Hnone & _ & Hstore).
  destruct (Hlater _ _ [] Sample.english _ _ eq_refl eq_refl) as (n & Hn & Hid & Hid').
  refine (conj (ex_intro _ r (ex_intro _ w' (conj Hins (conj Hr (conj _ Hstore)))))
            (conj (ex_intro _ n (ex_intro _ _ (ex_intro _ _ (ex_intro _ _ (ex_intro _ _
                     (conj eq_refl (conj eq_refl (conj Hn (conj Hid Hid')))))))))
               (conj (proj2 (Hstored eq_refl (Some "k1")) (ex_intro _ _ eq_refl))
                     (Htwice "k1" _ _ Sample.english eq_refl)))).
  apply Hnone; discriminate.
Defined.

(** C6 on the example: three settings and two other documents arrive, and
    [find] returns three rows. *)
Lemma find_returns_the_settings_witness :
  (∃ rows, find Sample.crowded = (inr rows, Sample.crowded) ∧ length rows = 3)
  ∧ (find Sample.down).1 = inl (Mem.BackendError Sample.timeout).
Proof.
  destruct (find_returns_the_settings "default" ∅ Sample.uuid) as (_ & Hcount & Hdown).
  refine (conj (Hcount Sample.arrivals Sample.up Sample.crowded eq_refl eq_refl _ eq_refl)
            (Hdown Sample.down _ eq_refl)).
  repeat constructor; discriminate.
Defined.

(** C9 on the example: k1 was inserted with the payload [echoed]. *)
Lemma stored_fields_override_attached_metadata_witness :
  ∃ r, findByID "k1" Sample.polluted = (inr r, Sample.polluted)
       ∧ r !! "id" = Some (VStr "zzz") ∧ r !! "cas" = Some (VCas 77).
Proof.
  destruct (stored_fields_override_attached_metadata "default" ∅ Sample.uuid
              Sample.polluted "k1") as (Hread & _ & _).
  destruct (Hread 1%N _ eq_refl eq_refl) as (r & Hfind & _ & Hid & Hcas & _).
  exact (ex_intro _ r (conj Hfind (conj (Hid _ eq_refl) (Hcas _ eq_refl)))).
Defined.

(** C10 on the example user model. *)
Lemma unknown_email_fails_without_comparing_passwords_witness :
  perform Sample.findOne Sample.comparePassword
    (verify Sample.lower "Bob@Example.com" "secret")
  = ([ReqFindOne "bob@example.com"], CbFail "This email is not registered.")
  ∧ perform Sample.findOne Sample.comparePassword
      (verify Sample.lower "Ann@Example.COM" "guess")
    = ([ReqFindOne "ann@example.com"; ReqComparePassword "ann" "guess"],
       CbFail "This password is not correct.").
Proof.
  destruct (unknown_email_fails_without_comparing_passwords Sample.lower
              Sample.findOne Sample.comparePassword "Bob@Example.com" "secret")
    as (_ & Hunknown & _).
  destruct (unknown_email_fails_without_comparing_passwords Sample.lower
              Sample.findOne Sample.comparePassword "Ann@Example.COM" "guess")
    as (_ & _ & _ & Hwrong & _).
  exact (conj (Hunknown eq_refl) (Hwrong "ann" eq_refl eq_refl)).
Defined.

(** * Further properties of dao.js, for every implementation of [db] *)

Section DaoAnyBackend.
Context `{B : Backend}.
Variable uuid_of : nat → string.

Implicit Types (w : world) (doc : obj).


(** X2.  [insert] does not look at the [type] of the payload: two payloads
    that agree on every other field are inserted with the same outcome. *)
Theorem insert_ignores_supplied_type w doc doc' (id : option string) :
  delete "type" doc = delete "type" doc' →
  insert uuid_of doc id w = insert uuid_of doc' id w.
Proof.
  intros Hsame. unfold insert, set_prop.
  by rewrite <- (insert_delete_eq doc), <- (insert_delete_eq doc'), Hsame.
Qed.

(** X3.  [update] does not look at the [type] of the document either: two
    documents with the same [id] and [cas] whose stripped payloads agree on
    every field but [type] are updated with the same outcome. *)
Theorem update_ignores_supplied_type w doc doc' :
  get_prop doc "id" = get_prop doc' "id" →
  get_prop doc "cas" = get_prop doc' "cas" →
  delete "type" (removeMetadataFromDoc doc)
  = delete "type" (removeMetadataFromDoc doc') →
  update doc w = update doc' w.
Proof.
  intros Hid Hcas Hsame. unfold update, set_prop. rewrite Hid, Hcas.
  by rewrite <- (insert_delete_eq (removeMetadataFromDoc doc)),
            <- (insert_delete_eq (removeMetadataFromDoc doc')), Hsame.
Qed.

(** X4.  When [db.insert] answers with [data], [insert] logs nothing and
    returns [data] with [id] set to the key it wrote under (the given id,
    or else the next UUID), replacing an [id] that [data] came with and
    keeping every other property of [data]. *)
Theorem insert_result_carries_the_key w doc (oid : option string) data s :
  let id := default (uuid_of (uuid_clock w)) oid in
  db_insert id (set_prop doc "type" (VStr "setting")) durabilityOptions (db w)
  = (inr data, s) →
  ∃ r w', insert uuid_of doc oid w = (inr r, w')
          ∧ log w' = log w ∧ db w' = s
          ∧ r !! "id" = Some (VStr id)
          ∧ ∀ k, k ≠ "id" → r !! k = data !! k.
Proof.
  intros id Hins. subst id.
  destruct oid as [id|]; simpl in *; eexists _, _;
    (split; [unfold_dao; simpl; unfold DOC_TYPE; by rewrite Hins|]);
    simpl; repeat split; unfold set_prop;
    first [apply lookup_insert_eq|by intros; apply lookup_insert_ne].
Qed.



Lemma after_log (c : dao_call) w :
  ∃ entries,
    log (after uuid_of c w) = log w ++ entries
    ∧ length entries = (if thrown uuid_of c w is Some _ then 1 else 0).
Proof.
  destruct (thrown uuid_of c w) as [t|] eqn:Ht.
  - destruct (thrown_is_translated uuid_of c w t Ht) as (e & _ & ->). by eexists.
  - exists []. by rewrite (quiet_when_nothing_thrown uuid_of c w Ht), app_nil_r.
Qed.

(** X6.  Over any sequence of calls the log only grows at its end, and by
    as many entries as calls threw. *)
Theorem log_grows_by_one_entry_per_failed_call (cs : list dao_call) w :
  log w `prefix_of` log (replay uuid_of cs w)
  ∧ length (log (replay uuid_of cs w)) = length (log w) + failures uuid_of cs w.
Proof.
  revert w. induction cs as [|c cs IH]; intros w.
  - simpl. split; [done|lia].
  - change (replay uuid_of (c :: cs) w) with (replay uuid_of cs (after uuid_of c w)).
    destruct (IH (after uuid_of c w)) as [Hpre Hlen].
    destruct (after_log c w) as (entries & Hc & Hclen). split.
    + etrans; [|exact Hpre]. rewrite Hc. by apply prefix_app_r.
    + rewrite Hlen, Hc, length_app, Hclen. simpl. lia.
Qed.

Lemma after_draws (c : dao_call) w :
  uuid_clock (after uuid_of c w) = uuid_clock w + draws c.
Proof.
  destruct c as [id| |doc [id|]|doc|id]; simpl; unfold_dao; simpl.
  - destruct (db_get id (db w)) as [[e|data] s]; simpl; lia.
  - destruct (db_query _ (db w)) as [[e|rows] s]; simpl; lia.
  - destruct (db_insert id _ _ (db w)) as [[e|data] s]; simpl; lia.
  - destruct (db_insert _ _ _ (db w)) as [[e|data] s]; simpl; lia.
  - destruct (db_replace _ _ _ (db w)) as [[e|data] s]; simpl; lia.
  - destruct (db_remove id (db w)) as [[e|data] s]; simpl; lia.
Qed.

(** X7.  UUIDs are drawn by [insert] without an id and by nothing else:
    over any sequence of calls the generator advances by the number of such
    inserts, whether the backend accepted them or not. *)
Theorem uuids_are_drawn_by_inserts_without_id (cs : list dao_call) w :
  uuid_clock (replay uuid_of cs w) = uuid_clock w + sum_list (draws <$> cs).
Proof.
  revert w. induction cs as [|c cs IH]; intros w; [simpl; lia|].
  change (replay uuid_of (c :: cs) w) with (replay uuid_of cs (after uuid_of c w)).
  change (sum_list (draws <$> c :: cs)) with (draws c + sum_list (draws <$> cs)).
  rewrite IH, after_draws. lia.
Qed.

End DaoAnyBackend.

(** * Further properties of the local strategy *)

Section LocalStrategyOutcomes.
Context {User Err : Type}.
Variable toLowerCase : string → string.
Variable findOne : string → Err + option User.
Variable comparePassword : User → string → Err + bool.

Local Abbreviation verdict_of email password :=
  (perform findOne comparePassword (verify toLowerCase email password)).2.

(** X8.  An attempt ends with a user exactly when the lookup of the
    lower-cased email found that user and the user's comparePassword
    answered that the supplied password matches. *)
Theorem verify_succeeds_iff_found_and_matching (email password : string) (u : User) :
  verdict_of email password = CbUser u
  ↔ findOne (toLowerCase email) = inr (Some u)
    ∧ comparePassword u password = inr true.
Proof.
  simpl. destruct (findOne (toLowerCase email)) as [err|[user|]]; simpl;
    [naive_solver| |naive_solver].
  destruct (comparePassword user password) as [err|[|]] eqn:Hcmp; simpl;
    naive_solver congruence.
Qed.

(** X9.  An attempt fails with a message in two cases only: 'This email is
    not registered.' exactly when the lookup found no user, and 'This
    password is not correct.' exactly when it found one whose
    comparePassword answered that the password does not match. *)
Theorem verify_fails_with_one_of_two_messages (email password m : string) :
  verdict_of email password = CbFail m
  ↔ (m = "This email is not registered." ∧ findOne (toLowerCase email) = inr None)
    ∨ (m = "This password is not correct."
       ∧ ∃ u, findOne (toLowerCase email) = inr (Some u)
              ∧ comparePassword u password = inr false).
Proof.
  simpl. destruct (findOne (toLowerCase email)) as [err|[user|]]; simpl;
    [naive_solver| |naive_solver].
  destruct (comparePassword user password) as [err|[|]] eqn:Hcmp; simpl;
    naive_solver congruence.
Qed.

(** X10.  An error of the user model is handed on unchanged: the attempt
    ends with [err] exactly when the lookup failed with [err], or found a
    user whose comparePassword failed with [err]. *)
Theorem verify_hands_errors_on (email password : string) (err : Err) :
  verdict_of email password = CbError err
  ↔ findOne (toLowerCase email) = inl err
    ∨ ∃ u, findOne (toLowerCase email) = inr (Some u)
           ∧ comparePassword u password = inl err.
Proof.
  simpl. destruct (findOne (toLowerCase email)) as [err'|[user|]]; simpl;
    [naive_solver| |naive_solver].
  destruct (comparePassword user password) as [err'|[|]] eqn:Hcmp; simpl;
    naive_solver congruence.
Qed.

End LocalStrategyOutcomes.

(** X11.  The case of the letters of the email does not matter: two
    emails with the same lower-case form are verified by the same steps,
    and so is the lower-case form itself, lower-casing it again changing
    nothing. *)
Theorem verify_ignores_the_case_of_the_email {User Err : Type}
    (toLowerCase : string → string) (email email' password : string) :
  toLowerCase email = toLowerCase email' →
  verify (User := User) (Err := Err) toLowerCase email password
  = verify toLowerCase email' password
  ∧ (toLowerCase (toLowerCase email) = toLowerCase email →
     verify (User := User) (Err := Err) toLowerCase (toLowerCase email) password
     = verify toLowerCase email' password).
Proof.
  intros Hsame. unfold verify. split; [by rewrite Hsame|].
  intros Hagain. by rewrite Hagain, Hsame.
Qed.

(** * The further properties on the example bucket *)


Lemma insert_ignores_supplied_type_witness :
  insert Sample.uuid Sample.english (Some "k1") Sample.up
  = insert Sample.uuid (<["type" := VStr "draft"]> Sample.english) (Some "k1") Sample.up.
Proof.
  apply (insert_ignores_supplied_type (B := Sample.B0) Sample.uuid Sample.up
           Sample.english (<["type" := VStr "draft"]> Sample.english) (Some "k1")).
  vm_compute. reflexivity.
Defined.

Lemma update_ignores_supplied_type_witness :
  update Sample.edited Sample.stored
  = update (<["type" := VStr "setting"]> Sample.edited) Sample.stored.
Proof.
  apply (update_ignores_supplied_type (B := Sample.B0) Sample.stored
           Sample.edited (<["type" := VStr "setting"]> Sample.edited));
    vm_compute; reflexivity.
Defined.

Lemma insert_result_carries_the_key_witness :
  ∃ r w', insert Sample.uuid Sample.english None Sample.up = (inr r, w')
          ∧ r !! "id" = Some (VStr "uuid-0")
          ∧ r !! "cas" = Some (VCas 1).
Proof.
  destruct (insert_result_carries_the_key (B := Sample.B0) Sample.uuid Sample.up
              Sample.english None _ _ eq_refl) as (r & w' & Hins & _ & _ & Hid & Hrest).
  refine (ex_intro _ r (ex_intro _ w' (conj Hins (conj Hid _)))).
  rewrite (Hrest "cas") by discriminate. reflexivity.
Defined.



Lemma verify_succeeds_iff_found_and_matching_witness :
  (perform Sample.findOne Sample.comparePassword
     (verify Sample.lower "Ann@Example.com" "secret")).2 = CbUser "ann".
Proof.
  apply (verify_succeeds_iff_found_and_matching Sample.lower Sample.findOne
           Sample.comparePassword "Ann@Example.com" "secret" "ann").
  split; reflexivity.
Defined.

Lemma verify_fails_with_one_of_two_messages_witness :
  (perform Sample.findOne Sample.comparePassword
     (verify Sample.lower "Ann@Example.com" "guess")).2
  = CbFail "This password is not correct.".
Proof.
  apply (verify_fails_with_one_of_two_messages Sample.lower Sample.findOne
           Sample.comparePassword "Ann@Example.com" "guess").
  right. split; [reflexivity|]. exists "ann". split; reflexivity.
Defined.

Lemma verify_ignores_the_case_of_the_email_witness :
  verify (User := string) (Err := string) Sample.lower "Ann@Example.COM" "secret"
  = verify Sample.lower "ANN@example.com" "secret"
  ∧ verify (User := string) (Err := string) Sample.lower
      (Sample.lower "Ann@Example.COM") "secret"
    = verify Sample.lower "ANN@example.com" "secret".
Proof.
  destruct (verify_ignores_the_case_of_the_email (User := string) (Err := string)
              Sample.lower "Ann@Example.COM" "ANN@example.com" "secret" eq_refl)
    as [Hsame Hlower].
  exact (conj Hsame (Hlower eq_refl)).
Defined.
